(** * Verification of the segmented Sieve of Eratosthenes (sieve.ts)

    A shallow embedding of the class [Sieve] of
    [src/javascript/Sieve/sieve.ts] and the properties of its specification.

    JavaScript numbers that hold integers are modelled as [Z] (exact below
    2^53, the range in which the program works); a [boolean[]] is a
    [list bool] read and written by index; a [throw] is a constructor of
    the result type.  The two calls to [Math.log] and the floating-point
    product and sum around them belong to the runtime: they are taken from
    a [MathEnv]. *)

From Equations Require Import Equations.
From Stdlib Require Import ZArith Znumtheory List Bool Lia Setoid Reals Lra.
Import ListNotations.
Local Open Scope Z_scope.

(** ** JavaScript arrays of booleans *)

Module JS.

Definition array := list bool.

(** [new Array(len).fill(v)], for the lengths the class asks for, which
    are never negative. *)
Definition new_Array_fill (len : Z) (v : bool) : array :=
  repeat v (Z.to_nat len).

(** [a.length] *)
Definition length (a : array) : Z := Z.of_nat (List.length a).

(** Truthiness of [a[j]]: an index outside the array reads [undefined],
    which is falsy. *)
Definition get (a : array) (j : Z) : bool :=
  if j <? 0 then false else nth (Z.to_nat j) a false.

(** [a[j] = v].  Writing at or beyond [a.length] extends the array; the
    skipped positions are holes, which read as [undefined] and are
    skipped by [filter]: they are stored as [false]. *)
Definition set (a : array) (j : Z) (v : bool) : array :=
  if j <? 0 then a
  else
    let k := Z.to_nat j in
    if (k <? List.length a)%nat
    then firstn k a ++ v :: skipn (S k) a
    else a ++ repeat false (k - List.length a) ++ [v].

(** [a.filter((prime) => prime).length] *)
Definition filter_length (a : array) : Z :=
  Z.of_nat (List.length (filter (fun prime => prime) a)).

(** [Math.ceil(a / b)] on integers [a >= 0] and [b > 0]: the double
    quotient of two integers below 2^53 is within half a unit in the last
    place of the rational one, which is at least [1 / b] away from the
    next integer unless it is one, so its ceiling is the exact one. *)
Definition Math_ceil_div (a b : Z) : Z := - ((- a) / b).

End JS.

(** ** The floating-point part of the runtime *)

(** [Math.log] and the rounding applied to the result of a sum or a
    product, on doubles seen as real numbers. *)
Class MathEnv := {
  Math_log : R -> R;
  fround : R -> R
}.

(** What IEEE 754 arithmetic gives and what a usable logarithm gives:
    rounding is monotone and leaves [1] alone, and [Math.log] is within a
    quarter of the natural logarithm from [1] on. *)
Class MathEnvSane (E : MathEnv) : Prop := {
  fround_monotone : forall x y : R, (x <= y)%R -> (fround x <= fround y)%R;
  fround_1 : fround 1%R = 1%R;
  Math_log_near_ln :
    forall x : R, (1 <= x)%R -> (Rabs (Math_log x - ln x) <= 1 / 4)%R
}.

(** Exact real arithmetic. *)
Definition exact_arithmetic : MathEnv :=
  {| Math_log := ln; fround := fun x => x |}.

(** ** Results of the public method *)

Inductive error : Type :=
| InvalidArgument   (* Error("n must be non-negative") *)
| BoundExceeded.    (* Error(`${n}th prime not found within calculated upper limit`) *)

Inductive result : Type :=
| Return (value : Z)
| Throw (e : error).

(** ** The class [Sieve] *)

Local Coercion Z.pos : positive >-> Z.

(** an arbitrary upper limit to chunk the sieve into multiple arrays; a
    chunk size is a [positive], which is what lets the segment loop end *)
Definition MAX_ARRAY_SIZE : positive := 1000000.

(** The inner loop of [generatePrimesSieve]:
    [for (j = ...; j < limit; j += i) primes[j] = false].  The divisor [i]
    starts at 2 and is only incremented: it is a [positive]. *)
Equations? mark_multiples (i : positive) (limit : Z) (primes : JS.array) (j : Z)
  : JS.array by wf (Z.to_nat (limit - j)) lt :=
  mark_multiples i limit primes j with Z_lt_dec j limit := {
    | left _ => mark_multiples i limit (JS.set primes j false) (j + i);
    | right _ => primes }.
Proof. lia. Qed.

(** The outer loop of [generatePrimesSieve]:
    [for (let i = 2; i * i < upperLimit; i++)], entered at [i]. *)
Equations? sieve_loop (offset limit : Z) (primes : JS.array) (i : positive)
  : JS.array by wf (Z.to_nat (offset + limit - i)) lt :=
  sieve_loop offset limit primes i with Z_lt_dec (i * i) (offset + limit) := {
    | left _ =>
        if (offset <=? i) && negb (JS.get primes (i - offset))
        then sieve_loop offset limit primes (Pos.succ i)
        else
          sieve_loop offset limit
            (mark_multiples i limit primes
               (Z.max (i * i) (JS.Math_ceil_div offset i * i) - offset))
            (Pos.succ i);
    | right _ => primes }.
Proof. all: nia. Qed.

Definition generatePrimesSieve (offset limit : Z) : JS.array :=
  let primes := JS.new_Array_fill limit true in
  let primes :=
    if offset =? 0 then JS.set (JS.set primes 1 false) 0 false else primes in
  sieve_loop offset limit primes 2.

(** The loop of [findTargetPrimeInSegment], entered at index [i] with
    [count] primes seen. *)
Equations? scan_loop (primes : JS.array) (targetCount offset : Z) (i count : Z)
  : option Z by wf (Z.to_nat (JS.length primes - i)) lt :=
  scan_loop primes targetCount offset i count with Z_lt_dec i (JS.length primes) := {
    | left _ =>
        if JS.get primes i
        then
          if count =? targetCount then Some (i + offset)
          else scan_loop primes targetCount offset (i + 1) (count + 1)
        else scan_loop primes targetCount offset (i + 1) count;
    | right _ => None }.
Proof. all: lia. Qed.

Definition findTargetPrimeInSegment (primes : JS.array) (targetCount offset : Z)
  : option Z :=
  scan_loop primes targetCount offset 0 0.

(** The [while (offset < upperLimit)] loop of [findNthPrime], entered with
    the given [primeCount] and [offset]; [chunk] is the value of
    [Sieve.MAX_ARRAY_SIZE]. *)
Equations? findNthPrime_loop (chunk : positive) (n upperLimit : Z)
  (primeCount offset : Z) : result by wf (Z.to_nat (upperLimit - offset)) lt :=
  findNthPrime_loop chunk n upperLimit primeCount offset
    with Z_lt_dec offset upperLimit := {
    | left _ =>
        let limit := Z.min (upperLimit - offset) chunk in
        let primes := generatePrimesSieve offset limit in
        match findTargetPrimeInSegment primes (n - primeCount) offset with
        | Some r => Return r
        | None =>
            findNthPrime_loop chunk n upperLimit
              (primeCount + JS.filter_length primes) (offset + limit)
        end;
    | right _ => Throw BoundExceeded }.
Proof. lia. Qed.

Definition findNthPrime (chunk : positive) (n upperLimit : Z) : result :=
  findNthPrime_loop chunk n upperLimit 0 0.

Section Estimate.
Context {E : MathEnv}.

Definition calculateUpperLimit (n : Z) : Z :=
  if n <? 6 then 11 (* fifth prime *)
  else
    Zceil (fround (IZR n *
                   fround (Math_log (IZR n) + Math_log (Math_log (IZR n))))).

(** [NthPrime] for a given value of [Sieve.MAX_ARRAY_SIZE]. *)
Definition NthPrime_with (chunk : positive) (n : Z) : result :=
  if n <? 0 then Throw InvalidArgument
  else if n =? 0 then Return 2
  else
    let upperLimit := calculateUpperLimit (n + 1) in
    findNthPrime chunk n upperLimit.

Definition NthPrime (n : Z) : result := NthPrime_with MAX_ARRAY_SIZE n.

End Estimate.

(** ** The reference: primes, and how many lie below a number *)

(** The integers of [[lo, lo + len)], in increasing order. *)
Fixpoint Zrange (lo : Z) (len : nat) : list Z :=
  match len with
  | O => []
  | S len' => lo :: Zrange (lo + 1) len'
  end.

(** Primality by trial division; [is_prime_spec] relates it to [Z.prime]. *)
Definition is_prime (n : Z) : bool :=
  (1 <? n) &&
  forallb (fun d => negb (n mod d =? 0)) (Zrange 2 (Z.to_nat (n - 2))).

(** The number of primes in [[lo, hi)]. *)
Definition count_primes (lo hi : Z) : Z :=
  Z.of_nat (List.length (filter is_prime (Zrange lo (Z.to_nat (hi - lo))))).

(** [p] is the prime of rank [n], counting from 0, in the ascending
    sequence of primes: [p] is prime and exactly [n] primes lie below it. *)
Definition nth_prime (n p : Z) : Prop :=
  Z.prime p /\ count_primes 0 p = n.

(** The indices at which an array holds [true], in increasing order. *)
Definition true_indices (a : JS.array) : list Z :=
  filter (JS.get a) (Zrange 0 (List.length a)).

(** What the outer loop of [generatePrimesSieve] maintains when it is about
    to try the divisor [i] on the segment [[offset, offset + limit)]: only
    indices of the segment that stand for numbers from 2 on are still
    [true], every prime of the segment is, and every multiple of a prime
    below [i] that is at least the square of that prime is struck. *)
Definition sieve_inv (offset limit : Z) (a : JS.array) (i : Z) : Prop :=
  (forall k, JS.get a k = true -> 0 <= k < limit /\ 2 <= offset + k) /\
  (forall k, 0 <= k < limit -> Z.prime (offset + k) -> JS.get a k = true) /\
  (forall k p, 0 <= k < limit -> Z.prime p -> p < i ->
               p * p <= offset + k -> (p | offset + k) -> JS.get a k = false).

(** The values of [primeCount] and [offset] with which the loop of
    [findNthPrime] tests its condition: both 0 on entry, and those left by
    an iteration that found no target in its segment. *)
Inductive loop_reaches (chunk : positive) (n upperLimit : Z) : Z -> Z -> Prop :=
| reaches_entry : loop_reaches chunk n upperLimit 0 0
| reaches_next (primeCount offset : Z) :
    loop_reaches chunk n upperLimit primeCount offset ->
    offset < upperLimit ->
    findTargetPrimeInSegment
      (generatePrimesSieve offset (Z.min (upperLimit - offset) chunk))
      (n - primeCount) offset = None ->
    loop_reaches chunk n upperLimit
      (primeCount +
       JS.filter_length
         (generatePrimesSieve offset (Z.min (upperLimit - offset) chunk)))
      (offset + Z.min (upperLimit - offset) chunk).


(** ** Reading and writing arrays *)

Lemma nth_repeat_false (m k : nat) : nth k (repeat false m) false = false.
Proof.
  revert k; induction m as [|m IH]; intros [|k]; simpl; auto.
Qed.

Lemma nth_repeat_true (m k : nat) :
  nth k (repeat true m) false = (k <? m)%nat.
Proof.
  revert k; induction m as [|m IH]; intros [|k]; simpl; auto.
Qed.

Lemma nth_set_inside (a : list bool) (j k : nat) (v : bool) :
  (j < List.length a)%nat ->
  nth k (firstn j a ++ v :: skipn (S j) a) false =
  if (k =? j)%nat then v else nth k a false.
Proof.
  revert j k; induction a as [|x a IH]; intros j k Hj; simpl in Hj; [lia|].
  destruct j as [|j]; destruct k as [|k]; simpl; auto.
  apply IH. lia.
Qed.

Lemma nth_set_beyond (a : list bool) (j k : nat) (v : bool) :
  (List.length a <= j)%nat ->
  nth k (a ++ repeat false (j - List.length a) ++ [v]) false =
  if (k =? j)%nat then v else nth k a false.
Proof.
  revert j k; induction a as [|x a IH]; intros j k Hj; simpl in *.
  - rewrite Nat.sub_0_r. destruct k; simpl.
    + destruct j; simpl; auto.
    + revert k; induction j as [|j IHj]; intros k; simpl.
      * destruct k; auto.
      * destruct k as [|k]; simpl.
        -- destruct j; auto.
        -- apply IHj. lia.
  - destruct j as [|j]; [lia|]. destruct k as [|k]; simpl; auto.
    apply IH. lia.
Qed.

Lemma get_set (a : JS.array) (j k : Z) (v : bool) :
  0 <= j ->
  JS.get (JS.set a j v) k = if k =? j then v else JS.get a k.
Proof.
  intros Hj. unfold JS.get, JS.set.
  destruct (Z.ltb_spec j 0); [lia|].
  destruct (Z.ltb_spec k 0).
  - destruct (Z.eqb_spec k j); [lia|reflexivity].
  - assert (Hkj : (k =? j) = (Z.to_nat k =? Z.to_nat j)%nat).
    { destruct (Z.eqb_spec k j), (Nat.eqb_spec (Z.to_nat k) (Z.to_nat j));
        auto; lia. }
    rewrite Hkj.
    destruct (Nat.ltb_spec (Z.to_nat j) (List.length a)).
    + apply nth_set_inside; assumption.
    + apply nth_set_beyond; assumption.
Qed.

Lemma get_negative (a : JS.array) (k : Z) : k < 0 -> JS.get a k = false.
Proof. intros H. unfold JS.get. destruct (Z.ltb_spec k 0); [reflexivity|lia]. Qed.

Lemma get_beyond (a : JS.array) (k : Z) :
  JS.length a <= k -> JS.get a k = false.
Proof.
  intros H. unfold JS.get, JS.length in *.
  destruct (Z.ltb_spec k 0); [reflexivity|].
  apply nth_overflow. lia.
Qed.

Lemma get_new_Array_fill_true (len k : Z) :
  JS.get (JS.new_Array_fill len true) k = (0 <=? k) && (k <? len).
Proof.
  unfold JS.get, JS.new_Array_fill.
  destruct (Z.ltb_spec k 0), (Z.leb_spec 0 k); try lia; simpl.
  rewrite nth_repeat_true.
  destruct (Nat.ltb_spec (Z.to_nat k) (Z.to_nat len)), (Z.ltb_spec k len);
    auto; lia.
Qed.

(** ** The inner loop strikes an arithmetic progression *)

Lemma mark_multiples_get (i : positive) (limit : Z) (primes : JS.array) (j k : Z) :
  0 <= j ->
  JS.get (mark_multiples i limit primes j) k = true <->
  JS.get primes k = true /\ ~ (j <= k < limit /\ (i | k - j)).
Proof.
  funelim (mark_multiples i limit primes j); intros Hj.
  - rewrite H by lia. rewrite get_set by lia.
    destruct (Z.eqb_spec k j) as [->|Hkj].
    + split; [intros [Hd _]; discriminate|]. intros [_ Hn]. exfalso. apply Hn.
      split; [lia|]. exists 0. lia.
    + split; intros [Hg Hn]; (split; [exact Hg|]); intros [Hr [q Hq]]; apply Hn.
      * assert (0 < q) by nia. split; [nia|]. exists (q - 1). lia.
      * split; [lia|]. exists (q + 1). lia.
  - split; [intros Hg; split; [exact Hg|lia]|tauto].
Qed.

(** ** Ceiling of an integer quotient *)

Lemma Math_ceil_div_bounds (a b : Z) :
  0 < b -> a <= JS.Math_ceil_div a b * b < a + b.
Proof.
  intros Hb. unfold JS.Math_ceil_div.
  pose proof (Z.div_mod (- a) b ltac:(lia)).
  pose proof (Z.mod_pos_bound (- a) b Hb). nia.
Qed.

Lemma Math_ceil_div_least (a b m : Z) :
  0 < b -> (b | m) -> a <= m -> JS.Math_ceil_div a b * b <= m.
Proof.
  intros Hb [q ->] Ham.
  pose proof (Math_ceil_div_bounds a b Hb) as Hc.
  apply Z.mul_le_mono_nonneg_r; [lia|].
  apply Z.lt_succ_r. apply Z.mul_lt_mono_pos_r with b; lia.
Qed.

(** ** Primes *)

Lemma In_Zrange (len : nat) (lo k : Z) :
  In k (Zrange lo len) <-> lo <= k < lo + Z.of_nat len.
Proof.
  revert lo; induction len as [|len IH]; intros lo; simpl.
  - lia.
  - rewrite IH. lia.
Qed.

Lemma is_prime_spec (n : Z) : is_prime n = true <-> Z.prime n.
Proof.
  unfold is_prime, Z.prime.
  rewrite andb_true_iff, forallb_forall, Z.ltb_lt.
  split; intros [H1 H2]; (split; [exact H1|]).
  - intros d Hd Hdiv.
    specialize (H2 d). rewrite In_Zrange in H2.
    specialize (H2 ltac:(lia)).
    apply Z.mod_divide in Hdiv; [|lia].
    rewrite Hdiv in H2. discriminate.
  - intros d Hd. apply In_Zrange in Hd.
    destruct (Z.eqb_spec (n mod d) 0) as [H0|]; [|reflexivity].
    exfalso. apply (H2 d); [lia|]. apply Z.mod_divide; [lia|exact H0].
Qed.

Lemma is_prime_false (n : Z) : is_prime n = false <-> ~ Z.prime n.
Proof.
  rewrite <- is_prime_spec. destruct (is_prime n); split; congruence.
Qed.

Lemma prime_factor_exists (n : Z) :
  2 <= n -> exists p, Z.prime p /\ (p | n).
Proof.
  pattern n. apply (well_founded_induction (Z.lt_wf 2)). clear n.
  intros n IH Hn.
  destruct (is_prime n) eqn:Hp.
  - exists n. split; [apply is_prime_spec; exact Hp|apply Z.divide_refl].
  - apply is_prime_false in Hp. rewrite prime_alt in Hp.
    destruct (not_prime_divide n ltac:(lia) Hp) as (d & Hd & Hdn).
    destruct (IH d ltac:(lia) ltac:(lia)) as (p & Hpp & Hpd).
    exists p. split; [exact Hpp|]. eapply Z.divide_trans; eassumption.
Qed.

(** A composite number has a prime factor whose square does not exceed
    it. *)
Lemma small_prime_factor (n : Z) :
  2 <= n -> ~ Z.prime n -> exists p, Z.prime p /\ (p | n) /\ p * p <= n.
Proof.
  intros Hn Hp. rewrite prime_alt in Hp.
  destruct (not_prime_divide n ltac:(lia) Hp) as (d & Hd & q & Hq).
  assert (Hq2 : 2 <= q) by nia.
  destruct (Z.le_gt_cases d q) as [Hdq|Hdq].
  - destruct (prime_factor_exists d ltac:(lia)) as (p & Hpp & Hpd).
    exists p. split; [exact Hpp|]. split.
    + apply Z.divide_trans with d; [exact Hpd|]. exists q. exact Hq.
    + pose proof (Z.prime_ge_2 p Hpp).
      pose proof (Z.divide_pos_le p d ltac:(lia) Hpd). nia.
  - destruct (prime_factor_exists q Hq2) as (p & Hpp & Hpd).
    exists p. split; [exact Hpp|]. split.
    + apply Z.divide_trans with q; [exact Hpd|]. exists d. lia.
    + pose proof (Z.prime_ge_2 p Hpp).
      pose proof (Z.divide_pos_le p q ltac:(lia) Hpd). nia.
Qed.

(** A proper multiple of a number from 2 on, at least its square, is not
    prime. *)
Lemma multiple_not_prime (i m : Z) :
  2 <= i -> (i | m) -> i * i <= m -> ~ Z.prime m.
Proof.
  intros Hi Hdiv Hsq [_ Hp]. apply (Hp i); [nia|exact Hdiv].
Qed.

(** ** The sieve of one segment *)

Lemma get_true_nonneg (a : JS.array) (k : Z) : JS.get a k = true -> 0 <= k.
Proof.
  intros H. destruct (Z.lt_ge_cases k 0) as [Hk|Hk]; [|exact Hk].
  rewrite get_negative in H by exact Hk. discriminate.
Qed.

(** The index at which the inner loop starts is that of the first multiple
    of [i] in the segment that is at least [i * i]. *)
Lemma first_multiple (offset : Z) (i : positive) (k : Z) :
  0 <= offset -> 0 <= k ->
  let j := Z.max (i * i) (JS.Math_ceil_div offset i * i) - offset in
  0 <= j /\
  ((j <= k /\ (i | k - j)) <-> (i * i <= offset + k /\ (i | offset + k))).
Proof.
  intros Hoff Hk j.
  pose proof (Math_ceil_div_bounds offset i ltac:(lia)) as Hc.
  assert (Hj : (i | offset + j)).
  { unfold j. replace (offset + (Z.max (i * i) (JS.Math_ceil_div offset i * i) - offset))
      with (Z.max (i * i) (JS.Math_ceil_div offset i * i)) by lia.
    destruct (Z.max_spec (i * i) (JS.Math_ceil_div offset i * i)) as [[_ ->]|[_ ->]].
    - exists (JS.Math_ceil_div offset i). reflexivity.
    - exists i. reflexivity. }
  split; [unfold j; lia|].
  assert (Hiff : (i | k - j) <-> (i | offset + k)).
  { replace (offset + k) with ((k - j) + (offset + j)) by lia.
    split; intros H.
    - apply Z.divide_add_r; assumption.
    - apply (Z.divide_add_cancel_r _ (offset + j)); [exact Hj|].
      replace (offset + j + (k - j)) with (k - j + (offset + j)) by lia. exact H. }
  rewrite Hiff. split; intros [H1 H2]; (split; [|exact H2]).
  - unfold j in H1. lia.
  - pose proof (Math_ceil_div_least offset i (offset + k) ltac:(lia) H2 ltac:(lia)).
    unfold j. lia.
Qed.

Lemma sieve_inv_skip (offset limit : Z) (a : JS.array) (i : positive) :
  0 <= offset -> i * i < offset + limit ->
  sieve_inv offset limit a i ->
  offset <= i -> JS.get a (i - offset) = false ->
  sieve_inv offset limit a (Pos.succ i).
Proof.
  intros Hoff Hsq (H0 & H1 & H2) Hle Hget.
  split; [exact H0|]. split; [exact H1|].
  intros k p Hk Hp Hlt Hpp Hdiv.
  rewrite Pos2Z.inj_succ in Hlt.
  destruct (Z.eq_dec p i) as [->|Hne].
  - exfalso. assert (Hin : 0 <= i - offset < limit) by nia.
    specialize (H1 (i - offset) Hin).
    replace (offset + (i - offset)) with (Z.pos i) in H1 by lia.
    rewrite (H1 Hp) in Hget. discriminate.
  - apply (H2 k p); auto; lia.
Qed.

Lemma sieve_inv_mark (offset limit : Z) (a : JS.array) (i : positive) :
  0 <= offset -> 2 <= i ->
  sieve_inv offset limit a i ->
  sieve_inv offset limit
    (mark_multiples i limit a
       (Z.max (i * i) (JS.Math_ceil_div offset i * i) - offset))
    (Pos.succ i).
Proof.
  intros Hoff Hi (H0 & H1 & H2).
  set (j := Z.max (i * i) (JS.Math_ceil_div offset i * i) - offset).
  assert (Hfm : forall k, 0 <= k ->
            0 <= j /\ ((j <= k /\ (i | k - j)) <->
                       (i * i <= offset + k /\ (i | offset + k)))).
  { intros k Hk. apply first_multiple; assumption. }
  assert (Hj : 0 <= j) by (apply (Hfm 0); lia).
  split; [|split].
  - intros k Hg. apply mark_multiples_get in Hg; [|exact Hj].
    apply H0. apply Hg.
  - intros k Hk Hp. apply mark_multiples_get; [exact Hj|].
    split; [apply H1; assumption|].
    intros [Hr Hd].
    destruct (Hfm k ltac:(lia)) as [_ Hiff].
    destruct (proj1 Hiff (conj (proj1 Hr) Hd)) as [Hsq Hdiv].
    exact (multiple_not_prime i (offset + k) Hi Hdiv Hsq Hp).
  - intros k p Hk Hp Hlt Hpp Hdiv.
    rewrite Pos2Z.inj_succ in Hlt.
    destruct (JS.get (mark_multiples i limit a j) k) eqn:Hg; [|reflexivity].
    exfalso. apply mark_multiples_get in Hg; [|exact Hj].
    destruct Hg as [Hg Hn].
    destruct (Z.eq_dec p i) as [->|Hne].
    + apply Hn. destruct (Hfm k ltac:(lia)) as [_ Hiff].
      destruct (proj2 Hiff (conj Hpp Hdiv)) as [Hjk Hd]. split; [lia|exact Hd].
    + rewrite (H2 k p) in Hg; auto; [discriminate|lia].
Qed.

Lemma sieve_loop_correct (offset limit : Z) (a : JS.array) (i : positive) :
  0 <= offset -> 2 <= i ->
  sieve_inv offset limit a i ->
  forall k,
    JS.get (sieve_loop offset limit a i) k = true <->
    0 <= k < limit /\ Z.prime (offset + k).
Proof.
  funelim (sieve_loop offset limit a i); intros Hoff Hi Hinv k.
  - destruct ((offset <=? i) && negb (JS.get primes (i - offset))) eqn:Hskip.
    + apply andb_true_iff in Hskip. destruct Hskip as [Hle Hng].
      apply Z.leb_le in Hle. apply negb_true_iff in Hng.
      apply H; [exact Hoff|lia|].
      apply sieve_inv_skip; assumption.
    + apply H0; [exact Hoff|lia|].
      apply sieve_inv_mark; assumption.
  - destruct Hinv as (H0 & H1 & H2). split.
    + intros Hg. destruct (H0 k Hg) as [Hk H2k]. split; [exact Hk|].
      destruct (is_prime (offset + k)) eqn:Hp; [apply is_prime_spec; exact Hp|].
      exfalso. apply is_prime_false in Hp.
      destruct (small_prime_factor (offset + k) H2k Hp) as (p & Hpp & Hpd & Hsq).
      pose proof (Z.prime_ge_2 p Hpp).
      rewrite (H2 k p) in Hg; auto; [discriminate|nia].
    + intros [Hk Hp]. apply H1; assumption.
Qed.

Lemma sieve_inv_init (offset limit : Z) :
  0 <= offset -> offset <> 1 ->
  sieve_inv offset limit
    (if offset =? 0
     then JS.set (JS.set (JS.new_Array_fill limit true) 1 false) 0 false
     else JS.new_Array_fill limit true) 2.
Proof.
  intros Hoff Hne.
  assert (Hget : forall k,
    JS.get (if offset =? 0
            then JS.set (JS.set (JS.new_Array_fill limit true) 1 false) 0 false
            else JS.new_Array_fill limit true) k = true <->
    0 <= k < limit /\ 2 <= offset + k).
  { intros k. destruct (Z.eqb_spec offset 0) as [->|H0].
    - rewrite !get_set by lia. rewrite get_new_Array_fill_true.
      destruct (Z.eqb_spec k 0), (Z.eqb_spec k 1); try (split; [discriminate|lia]).
      rewrite andb_true_iff, Z.leb_le, Z.ltb_lt. lia.
    - rewrite get_new_Array_fill_true.
      rewrite andb_true_iff, Z.leb_le, Z.ltb_lt. lia. }
  split; [|split].
  - intros k Hg. apply Hget. exact Hg.
  - intros k Hk Hp. apply Hget. pose proof (Z.prime_ge_2 _ Hp). lia.
  - intros k p _ Hp Hlt. pose proof (Z.prime_ge_2 _ Hp). lia.
Qed.

(** The segment holds [true] exactly at the indices of its primes, for
    every offset but 1. *)
Lemma generatePrimesSieve_get (offset limit k : Z) :
  0 <= offset -> offset <> 1 ->
  JS.get (generatePrimesSieve offset limit) k = true <->
  0 <= k < limit /\ Z.prime (offset + k).
Proof.
  intros Hoff Hne. unfold generatePrimesSieve.
  apply sieve_loop_correct; [exact Hoff|lia|].
  apply sieve_inv_init; assumption.
Qed.

(** ** Counting the [true] entries of an array *)

Lemma Zrange_app (n m : nat) (lo : Z) :
  Zrange lo (n + m) = Zrange lo n ++ Zrange (lo + Z.of_nat n) m.
Proof.
  revert lo; induction n as [|n IH]; intros lo.
  - simpl. f_equal. lia.
  - cbn [Nat.add Zrange app]. rewrite IH. do 3 f_equal. lia.
Qed.

Lemma Zrange_snoc (n : nat) (lo : Z) :
  Zrange lo (S n) = Zrange lo n ++ [lo + Z.of_nat n].
Proof.
  replace (S n) with (n + 1)%nat by lia. apply Zrange_app.
Qed.

Lemma Zrange_length (n : nat) (lo : Z) : List.length (Zrange lo n) = n.
Proof.
  revert lo; induction n as [|n IH]; intros lo; simpl; [reflexivity|].
  rewrite IH. reflexivity.
Qed.

Lemma firstn_snoc (a : list bool) (n : nat) :
  (n < List.length a)%nat ->
  firstn (S n) a = firstn n a ++ [nth n a false].
Proof.
  revert n; induction a as [|x a IH]; intros n Hn; simpl in Hn; [lia|].
  destruct n as [|n]; [reflexivity|].
  cbn [firstn nth app]. rewrite <- IH by lia. reflexivity.
Qed.

(** The [true] entries among the first [n] are the indices below [n] that
    read [true]. *)
Lemma filter_firstn_get (a : JS.array) (n : nat) :
  List.length (filter (fun prime => prime) (firstn n a)) =
  List.length (filter (JS.get a) (Zrange 0 n)).
Proof.
  induction n as [|n IH]; [reflexivity|].
  rewrite Zrange_snoc, filter_app, length_app, <- IH.
  replace (0 + Z.of_nat n) with (Z.of_nat n) by lia.
  destruct (Nat.lt_ge_cases n (List.length a)) as [Hlt|Hge].
  - rewrite firstn_snoc by exact Hlt. rewrite filter_app, length_app.
    f_equal. cbn [filter]. unfold JS.get.
    destruct (Z.ltb_spec (Z.of_nat n) 0); [lia|].
    rewrite Nat2Z.id. destruct (nth n a false); reflexivity.
  - rewrite !firstn_all2 by lia. cbn [filter].
    rewrite get_beyond by (unfold JS.length; lia). simpl. lia.
Qed.

Lemma filter_length_firstn (a : JS.array) (m : Z) :
  JS.filter_length (firstn (Z.to_nat m) a) =
  Z.of_nat (List.length (filter (JS.get a) (Zrange 0 (Z.to_nat m)))).
Proof. unfold JS.filter_length. rewrite filter_firstn_get. reflexivity. Qed.

Lemma filter_length_all (a : JS.array) :
  JS.filter_length a =
  Z.of_nat (List.length (filter (JS.get a) (Zrange 0 (List.length a)))).
Proof.
  rewrite <- filter_firstn_get, firstn_all. reflexivity.
Qed.

Lemma filter_length_firstn_succ (a : JS.array) (i : Z) :
  0 <= i < JS.length a ->
  JS.filter_length (firstn (Z.to_nat (i + 1)) a) =
  JS.filter_length (firstn (Z.to_nat i) a) + (if JS.get a i then 1 else 0).
Proof.
  intros Hi. rewrite !filter_length_firstn.
  replace (Z.to_nat (i + 1)) with (S (Z.to_nat i)) by lia.
  rewrite Zrange_snoc, filter_app, length_app. simpl.
  replace (Z.of_nat (Z.to_nat i)) with i by lia.
  destruct (JS.get a i); simpl; lia.
Qed.

Lemma filter_length_firstn_le (a : JS.array) (n m : nat) :
  (n <= m)%nat ->
  JS.filter_length (firstn n a) <= JS.filter_length (firstn m a).
Proof.
  intros Hle. unfold JS.filter_length. rewrite !filter_firstn_get.
  replace m with (n + (m - n))%nat by lia.
  rewrite Zrange_app, filter_app, length_app. lia.
Qed.

(** ** The scan of one segment *)

Lemma scan_loop_spec (primes : JS.array) (targetCount offset i count : Z) :
  0 <= i ->
  count = JS.filter_length (firstn (Z.to_nat i) primes) ->
  count <= targetCount ->
  match scan_loop primes targetCount offset i count with
  | Some r =>
      exists m, i <= m < JS.length primes /\ JS.get primes m = true /\
                JS.filter_length (firstn (Z.to_nat m) primes) = targetCount /\
                r = offset + m
  | None => JS.filter_length primes <= targetCount
  end.
Proof.
  funelim (scan_loop primes targetCount offset i count); intros Hi Hc Hle.
  - pose proof (filter_length_firstn_succ primes i ltac:(lia)) as Hs.
    destruct (JS.get primes i) eqn:Hg.
    + destruct (Z.eqb_spec count targetCount) as [Heqc|Hne].
      * exists i. repeat split; try lia. exact Hg.
      * specialize (H ltac:(lia) ltac:(lia) ltac:(lia)).
        destruct (scan_loop primes targetCount offset (i + 1) (count + 1));
          [|exact H].
        destruct H as (m & Hm & Hrest). exists m. split; [lia|exact Hrest].
    + specialize (H0 ltac:(lia) ltac:(lia) ltac:(lia)).
      destruct (scan_loop primes targetCount offset (i + 1) count); [|exact H0].
      destruct H0 as (m & Hm & Hrest). exists m. split; [lia|exact Hrest].
  - rewrite firstn_all2 in Hc by (unfold JS.length in *; lia). lia.
Qed.

Lemma findTargetPrimeInSegment_spec (primes : JS.array) (targetCount offset : Z) :
  0 <= targetCount ->
  match findTargetPrimeInSegment primes targetCount offset with
  | Some r =>
      exists m, 0 <= m < JS.length primes /\ JS.get primes m = true /\
                JS.filter_length (firstn (Z.to_nat m) primes) = targetCount /\
                r = offset + m
  | None => JS.filter_length primes <= targetCount
  end.
Proof.
  intros Ht. unfold findTargetPrimeInSegment.
  apply scan_loop_spec; [lia|reflexivity|exact Ht].
Qed.

(** An index that reads [true] and has [t] [true] entries before it shows
    that the array has more than [t] of them. *)
Lemma filter_length_above (a : JS.array) (m : Z) :
  0 <= m < JS.length a -> JS.get a m = true ->
  JS.filter_length (firstn (Z.to_nat m) a) < JS.filter_length a.
Proof.
  intros Hm Hg.
  pose proof (filter_length_firstn_succ a m Hm) as Hs. rewrite Hg in Hs.
  pose proof (filter_length_firstn_le a (Z.to_nat (m + 1)) (List.length a)
                ltac:(unfold JS.length in *; lia)) as Hle.
  rewrite firstn_all in Hle. lia.
Qed.

(** The index of the entry of a given rank among the [true] ones is
    unique. *)
Lemma rank_index_unique (a : JS.array) (m m' : Z) :
  0 <= m < JS.length a -> 0 <= m' < JS.length a ->
  JS.get a m = true -> JS.get a m' = true ->
  JS.filter_length (firstn (Z.to_nat m) a) =
  JS.filter_length (firstn (Z.to_nat m') a) ->
  m = m'.
Proof.
  assert (Hlt : forall x y, 0 <= x < JS.length a -> JS.get a x = true ->
            x < y ->
            JS.filter_length (firstn (Z.to_nat x) a) <
            JS.filter_length (firstn (Z.to_nat y) a)).
  { intros x y Hx Hg Hxy.
    pose proof (filter_length_firstn_succ a x Hx) as Hs. rewrite Hg in Hs.
    pose proof (filter_length_firstn_le a (Z.to_nat (x + 1)) (Z.to_nat y)
                  ltac:(lia)). lia. }
  intros Hm Hm' Hg Hg' Heq.
  destruct (Z.lt_trichotomy m m') as [H|[H|H]]; [|exact H|].
  - pose proof (Hlt m m' Hm Hg H). lia.
  - pose proof (Hlt m' m Hm' Hg' H). lia.
Qed.

(** ** Counting primes *)

Lemma count_primes_nonneg (lo hi : Z) : 0 <= count_primes lo hi.
Proof. unfold count_primes. lia. Qed.

Lemma count_primes_split (a b c : Z) :
  a <= b <= c -> count_primes a c = count_primes a b + count_primes b c.
Proof.
  intros H. unfold count_primes.
  replace (Z.to_nat (c - a)) with (Z.to_nat (b - a) + Z.to_nat (c - b))%nat by lia.
  rewrite Zrange_app, filter_app, length_app.
  replace (a + Z.of_nat (Z.to_nat (b - a))) with b by lia. lia.
Qed.

Lemma count_primes_empty (a b : Z) : b <= a -> count_primes a b = 0.
Proof.
  intros H. unfold count_primes.
  replace (Z.to_nat (b - a)) with 0%nat by lia. reflexivity.
Qed.

Lemma count_primes_mono (a b c : Z) :
  b <= c -> count_primes a b <= count_primes a c.
Proof.
  intros H. destruct (Z.le_gt_cases a b) as [Hab|Hab].
  - rewrite (count_primes_split a b c) by lia.
    pose proof (count_primes_nonneg b c). lia.
  - rewrite (count_primes_empty a b) by lia. apply count_primes_nonneg.
Qed.

Lemma count_primes_succ (lo v : Z) :
  lo <= v ->
  count_primes lo (v + 1) = count_primes lo v + (if is_prime v then 1 else 0).
Proof.
  intros H. rewrite (count_primes_split lo v (v + 1)) by lia. f_equal.
  unfold count_primes. replace (Z.to_nat (v + 1 - v)) with 1%nat by lia.
  simpl. destruct (is_prime v); reflexivity.
Qed.

(** Below a prime of rank [n] there are [n] primes, and up to it [n + 1]. *)
Lemma nth_prime_count_above (n p hi : Z) :
  nth_prime n p -> p < hi -> n < count_primes 0 hi.
Proof.
  intros [Hp Hn] Hlt. pose proof (Z.prime_ge_2 p Hp).
  pose proof (count_primes_succ 0 p ltac:(lia)) as Hs.
  apply is_prime_spec in Hp. rewrite Hp in Hs.
  pose proof (count_primes_mono 0 (p + 1) hi ltac:(lia)). lia.
Qed.

(** There is one prime of each rank. *)
Lemma nth_prime_unique (n p q : Z) : nth_prime n p -> nth_prime n q -> p = q.
Proof.
  intros Hp Hq.
  destruct (Z.lt_trichotomy p q) as [H|[H|H]]; [|exact H|].
  - pose proof (nth_prime_count_above n p q Hp H). destruct Hq. lia.
  - pose proof (nth_prime_count_above n q p Hq H). destruct Hp. lia.
Qed.

(** The ranks of the primes grow with them. *)
Lemma nth_prime_lt (n m p q : Z) :
  nth_prime n p -> nth_prime m q -> n < m -> p < q.
Proof.
  intros Hp Hq Hnm.
  destruct (Z.lt_ge_cases p q) as [H|H]; [exact H|exfalso].
  destruct Hp as [_ Hp], Hq as [_ Hq].
  pose proof (count_primes_mono 0 q p H). lia.
Qed.

(** ** The [true] entries of a sieved segment are its primes *)

Lemma filter_none {A : Type} (f : A -> bool) (l : list A) :
  (forall x, In x l -> f x = false) -> filter f l = [].
Proof.
  induction l as [|x l IH]; intros H; simpl; [reflexivity|].
  rewrite (H x) by (left; reflexivity).
  apply IH. intros y Hy. apply H. right. exact Hy.
Qed.

Lemma filter_length_firstn_stable (a : JS.array) (n m : nat) :
  (n <= m)%nat ->
  (forall k, Z.of_nat n <= k -> JS.get a k = false) ->
  JS.filter_length (firstn m a) = JS.filter_length (firstn n a).
Proof.
  intros Hle Hfalse. unfold JS.filter_length. rewrite !filter_firstn_get.
  replace m with (n + (m - n))%nat by lia.
  rewrite Zrange_app, filter_app, length_app.
  rewrite (filter_none (JS.get a) (Zrange (0 + Z.of_nat n) (m - n))).
  - simpl. lia.
  - intros k Hk. apply In_Zrange in Hk. apply Hfalse. lia.
Qed.

Section Segment.
Variables (segment : JS.array) (offset limit : Z).
Hypothesis segment_primes :
  forall k, JS.get segment k = true <->
            0 <= k < limit /\ Z.prime (offset + k).

Lemma segment_get_is_prime (k : Z) :
  0 <= k < limit -> JS.get segment k = is_prime (offset + k).
Proof.
  intros Hk. pose proof (segment_primes k) as H.
  rewrite <- is_prime_spec in H.
  destruct (JS.get segment k), (is_prime (offset + k)); try reflexivity.
  - symmetry. apply H. reflexivity.
  - apply H. split; [exact Hk|reflexivity].
Qed.

Lemma segment_count_nat (n : nat) :
  Z.of_nat n <= limit ->
  List.length (filter (JS.get segment) (Zrange 0 n)) =
  List.length (filter is_prime (Zrange offset n)).
Proof.
  induction n as [|n IH]; intros Hn; [reflexivity|].
  rewrite !Zrange_snoc, !filter_app, !length_app, IH by lia.
  f_equal. cbn [filter].
  replace (0 + Z.of_nat n) with (Z.of_nat n) by lia.
  rewrite segment_get_is_prime by lia.
  destruct (is_prime (offset + Z.of_nat n)); reflexivity.
Qed.

Lemma segment_count_firstn (m : Z) :
  0 <= m <= limit ->
  JS.filter_length (firstn (Z.to_nat m) segment) =
  count_primes offset (offset + m).
Proof.
  intros Hm. rewrite filter_length_firstn, segment_count_nat by lia.
  unfold count_primes. do 4 f_equal. lia.
Qed.

Lemma segment_count_all :
  0 <= limit ->
  JS.filter_length segment = count_primes offset (offset + limit).
Proof.
  intros Hl. rewrite <- (segment_count_firstn limit) by lia.
  destruct (Nat.le_ge_cases (Z.to_nat limit) (List.length segment)) as [H|H].
  - rewrite <- (firstn_all segment) at 1.
    apply filter_length_firstn_stable; [exact H|].
    intros k Hk. destruct (JS.get segment k) eqn:Hg; [|reflexivity].
    apply segment_primes in Hg. lia.
  - rewrite firstn_all2 by exact H. reflexivity.
Qed.

End Segment.

(** ** The segment loop *)

Lemma findNthPrime_loop_spec (chunk : positive) (n upperLimit primeCount offset : Z) :
  2 <= chunk -> 0 <= offset -> (offset < upperLimit -> offset <> 1) ->
  primeCount = count_primes 0 offset -> primeCount <= n ->
  match findNthPrime_loop chunk n upperLimit primeCount offset with
  | Return v => nth_prime n v /\ offset <= v < upperLimit
  | Throw e => e = BoundExceeded /\ count_primes 0 upperLimit <= n
  end.
Proof.
  funelim (findNthPrime_loop chunk n upperLimit primeCount offset);
    intros Hchunk Hoff Hne Hpc Hle.
  - clear Heq Heqcall.
    set (limit := Z.min (upperLimit - offset) chunk) in *.
    assert (Hlim : 1 <= limit <= upperLimit - offset) by (unfold limit; lia).
    set (primes := generatePrimesSieve offset limit) in *.
    assert (Hseg : forall k, JS.get primes k = true <->
                             0 <= k < limit /\ Z.prime (offset + k)).
    { intros k. apply generatePrimesSieve_get; [exact Hoff|apply Hne; exact l]. }
    pose proof (findTargetPrimeInSegment_spec primes (n - primeCount) offset
                  ltac:(lia)) as Hscan.
    destruct (findTargetPrimeInSegment primes (n - primeCount) offset) as [r|].
    + destruct Hscan as (m & Hm & Hg & Hcount & ->).
      apply Hseg in Hg. destruct Hg as [Hml Hp].
      rewrite (segment_count_firstn primes offset limit Hseg m) in Hcount by lia.
      split; [|lia]. split; [exact Hp|].
      rewrite (count_primes_split 0 offset (offset + m)) by lia. lia.
    + rewrite (segment_count_all primes offset limit Hseg) in Hscan, H |- * by lia.
      pose proof (count_primes_split 0 offset (offset + limit) ltac:(lia)) as Hs.
      specialize (H Hchunk ltac:(lia) ltac:(unfold limit; lia) ltac:(lia)
                    ltac:(lia)).
      destruct (findNthPrime_loop chunk n upperLimit
                  (primeCount + count_primes offset (offset + limit))
                  (offset + limit)) as [v|e]; [|exact H].
      split; [apply H|lia].
  - split; [reflexivity|].
    pose proof (count_primes_mono 0 upperLimit offset ltac:(lia)). lia.
Qed.

(** [findNthPrime] returns the prime of rank [n] when it is below the
    upper limit, and reports the bound otherwise, whatever the size of the
    chunks, from 2 on. *)
Lemma findNthPrime_spec (chunk : positive) (n upperLimit : Z) :
  2 <= chunk -> 0 <= n ->
  match findNthPrime chunk n upperLimit with
  | Return v => nth_prime n v /\ v < upperLimit
  | Throw e => e = BoundExceeded /\ count_primes 0 upperLimit <= n
  end.
Proof.
  intros Hchunk Hn. unfold findNthPrime.
  pose proof (findNthPrime_loop_spec chunk n upperLimit 0 0 Hchunk
                ltac:(lia) ltac:(lia) eq_refl Hn) as H.
  destruct (findNthPrime_loop chunk n upperLimit 0 0) as [v|e]; [|exact H].
  split; [apply H|lia].
Qed.

Lemma findNthPrime_chunk_independent (c1 c2 : positive) (n upperLimit : Z) :
  2 <= c1 -> 2 <= c2 -> 0 <= n ->
  findNthPrime c1 n upperLimit = findNthPrime c2 n upperLimit.
Proof.
  intros H1 H2 Hn.
  pose proof (findNthPrime_spec c1 n upperLimit H1 Hn) as S1.
  pose proof (findNthPrime_spec c2 n upperLimit H2 Hn) as S2.
  destruct (findNthPrime c1 n upperLimit) as [v1|e1],
           (findNthPrime c2 n upperLimit) as [v2|e2].
  - f_equal. eapply nth_prime_unique; [apply S1|apply S2].
  - destruct S1 as [Hp Hlt], S2 as [_ Hc].
    pose proof (nth_prime_count_above n v1 upperLimit Hp Hlt). lia.
  - destruct S2 as [Hp Hlt], S1 as [_ Hc].
    pose proof (nth_prime_count_above n v2 upperLimit Hp Hlt). lia.
  - destruct S1 as [-> _], S2 as [-> _]. reflexivity.
Qed.

Lemma loop_reaches_run (chunk : positive) (n upperLimit primeCount offset : Z) :
  loop_reaches chunk n upperLimit primeCount offset ->
  findNthPrime_loop chunk n upperLimit primeCount offset =
  findNthPrime chunk n upperLimit.
Proof.
  induction 1 as [|pc off Hr IH Hlt Hscan]; [reflexivity|].
  rewrite <- IH. rewrite (findNthPrime_loop_equation_1 chunk n upperLimit pc off).
  destruct (Z_lt_dec off upperLimit) as [l|]; [|lia].
  simpl. rewrite Hscan. reflexivity.
Qed.

Lemma loop_reaches_inv (chunk : positive) (n upperLimit primeCount offset : Z) :
  2 <= chunk ->
  loop_reaches chunk n upperLimit primeCount offset ->
  primeCount = count_primes 0 offset /\ 0 <= offset /\
  (offset < upperLimit -> offset <> 1).
Proof.
  intros Hchunk. induction 1 as [|pc off Hr IH Hlt Hscan].
  - split; [reflexivity|lia].
  - destruct IH as (Hpc & Hoff & Hne).
    set (limit := Z.min (upperLimit - off) chunk) in *.
    assert (Hlim : 1 <= limit <= upperLimit - off) by (unfold limit; lia).
    assert (Hseg : forall k, JS.get (generatePrimesSieve off limit) k = true <->
                             0 <= k < limit /\ Z.prime (off + k)).
    { intros k. apply generatePrimesSieve_get; [exact Hoff|apply Hne; exact Hlt]. }
    rewrite (segment_count_all _ off limit Hseg) by lia.
    rewrite (count_primes_split 0 off (off + limit)) by lia.
    split; [lia|]. split; [lia|unfold limit; lia].
Qed.

(** ** The public method *)

Lemma nth_prime_0_2 : nth_prime 0 2.
Proof. split; [apply Z.prime_2|reflexivity]. Qed.

Lemma NthPrime_with_spec {E : MathEnv} (chunk : positive) (n : Z) :
  2 <= chunk -> 0 <= n ->
  match NthPrime_with chunk n with
  | Return v => nth_prime n v
  | Throw e =>
      e = BoundExceeded /\ count_primes 0 (calculateUpperLimit (n + 1)) <= n
  end.
Proof.
  intros Hchunk Hn. unfold NthPrime_with.
  destruct (Z.ltb_spec n 0) as [Hneg|_]; [lia|].
  destruct (Z.eqb_spec n 0) as [->|Hn0]; [exact nth_prime_0_2|].
  cbv zeta.
  pose proof (findNthPrime_spec chunk n (calculateUpperLimit (n + 1)) Hchunk Hn)
    as Hspec.
  destruct (findNthPrime chunk n (calculateUpperLimit (n + 1)));
    [apply Hspec|exact Hspec].
Qed.

Lemma NthPrime_spec {E : MathEnv} (n : Z) :
  0 <= n ->
  match NthPrime n with
  | Return v => nth_prime n v
  | Throw e =>
      e = BoundExceeded /\ count_primes 0 (calculateUpperLimit (n + 1)) <= n
  end.
Proof. apply NthPrime_with_spec. unfold MAX_ARRAY_SIZE. lia. Qed.

(** Where two ranks both have a result, the results are ordered as the
    ranks. *)
Lemma NthPrime_increasing {E : MathEnv} (n1 n2 v1 v2 : Z) :
  0 <= n1 < n2 ->
  NthPrime n1 = Return v1 -> NthPrime n2 = Return v2 -> v1 < v2.
Proof.
  intros Hn H1 H2.
  pose proof (NthPrime_spec n1 ltac:(lia)) as S1. rewrite H1 in S1.
  pose proof (NthPrime_spec n2 ltac:(lia)) as S2. rewrite H2 in S2.
  apply (nth_prime_lt n1 n2); [exact S1|exact S2|lia].
Qed.

Lemma NthPrime_small {E : MathEnv} :
  NthPrime 0 = Return 2 /\ NthPrime 1 = Return 3 /\ NthPrime 2 = Return 5 /\
  NthPrime 3 = Return 7.
Proof. repeat split; vm_compute; reflexivity. Qed.

(** [NthPrime] returns the prime of rank [n] whenever that prime is below
    the estimated upper limit. *)
Lemma NthPrime_complete {E : MathEnv} (n p : Z) :
  0 <= n -> nth_prime n p -> p < calculateUpperLimit (n + 1) ->
  NthPrime n = Return p.
Proof.
  intros Hn Hp Hlt. pose proof (NthPrime_spec n Hn) as S.
  destruct (NthPrime n) as [v|e].
  - f_equal. exact (nth_prime_unique n v p S Hp).
  - destruct S as [_ Hc].
    pose proof (nth_prime_count_above n p _ Hp Hlt). lia.
Qed.

(** At rank 5 the limit comes from [Math.log]: 13 is returned as soon as
    the estimate for 6 is at least 14 (it is 15 in exact arithmetic). *)
Lemma NthPrime_5 {E : MathEnv} :
  14 <= calculateUpperLimit (5 + 1) -> NthPrime 5 = Return 13.
Proof.
  intros H. apply NthPrime_complete; [lia| |lia].
  split; [apply is_prime_spec|]; vm_compute; reflexivity.
Qed.

(** ** The estimate of the upper limit *)

Lemma ln_6_lower : (3 / 2 <= ln 6)%R.
Proof.
  replace 6%R with (2 * 3)%R by lra.
  rewrite ln_mult by lra.
  pose proof ln_lt_2 as H2.
  assert (H3 : (1 <= ln 3)%R).
  { rewrite <- (ln_exp 1). destruct exp_le_3 as [Hlt|Heq].
    - left. apply ln_increasing; [apply exp_pos|exact Hlt].
    - rewrite Heq. right. reflexivity. }
  lra.
Qed.

Lemma ln_ge_6 (x : R) : (6 <= x)%R -> (3 / 2 <= ln x)%R.
Proof.
  intros [Hlt|<-]; [|exact ln_6_lower].
  pose proof ln_6_lower. pose proof (ln_increasing 6 x ltac:(lra) Hlt). lra.
Qed.

Lemma ln_ge_1 (x : R) : (1 <= x)%R -> (0 <= ln x)%R.
Proof.
  intros [Hlt|<-]; [|rewrite ln_1; lra].
  pose proof (ln_increasing 1 x ltac:(lra) Hlt) as H. rewrite ln_1 in H. lra.
Qed.

Lemma Math_log_lower {E : MathEnv} {S : MathEnvSane E} (x : R) :
  (1 <= x)%R -> (ln x - 1 / 4 <= Math_log x)%R.
Proof.
  intros Hx. pose proof (Math_log_near_ln x Hx) as H.
  unfold Rabs in H. destruct (Rcase_abs (Math_log x - ln x)); lra.
Qed.

(** The sum that the estimate multiplies by [n] is at least 1 from 6 on. *)
Lemma estimate_factor_ge_1 {E : MathEnv} {S : MathEnvSane E} (x : R) :
  (6 <= x)%R ->
  (1 <= fround (Math_log x + Math_log (Math_log x)))%R.
Proof.
  intros Hx.
  pose proof (ln_ge_6 x Hx) as H6.
  assert (H1 : (ln x - 1 / 4 <= Math_log x)%R) by (apply Math_log_lower; lra).
  assert (H0 : (0 <= ln (Math_log x))%R) by (apply ln_ge_1; lra).
  assert (H2 : (ln (Math_log x) - 1 / 4 <= Math_log (Math_log x))%R)
    by (apply Math_log_lower; lra).
  rewrite <- fround_1 at 1. apply fround_monotone. lra.
Qed.

Lemma calculateUpperLimit_lower {E : MathEnv} {S : MathEnvSane E} (n : Z) :
  1 <= n -> fround (IZR n) = IZR n -> n <= calculateUpperLimit n.
Proof.
  intros Hn Hdouble. unfold calculateUpperLimit.
  destruct (Z.ltb_spec n 6) as [Hlt|Hge]; [lia|].
  assert (Hx : (6 <= IZR n)%R) by (apply IZR_le; exact Hge).
  pose proof (estimate_factor_ge_1 (IZR n) Hx) as Hs.
  rewrite <- (Zceil_eq n (IZR n)) at 1 by lra.
  apply Zceil_le. rewrite <- Hdouble at 1. apply fround_monotone. nra.
Qed.

Lemma exact_arithmetic_sane : MathEnvSane exact_arithmetic.
Proof.
  split; simpl.
  - intros x y H. exact H.
  - reflexivity.
  - intros x _. replace (ln x - ln x)%R with 0%R by lra.
    rewrite Rabs_R0. lra.
Qed.

(** * The properties of the specification *)

(** C1 (fails on the code at rank 4): [NthPrime] is to return the prime of
    rank [n] for every [n] from 0 to 10000, and 11 at rank 4.  The prime of
    rank 4 is 11, but [calculateUpperLimit(5)] is 11 and the search covers
    [[0, 11)] only: [NthPrime(4)] throws the bound error. *)
Theorem NthPrime_4_not_found :
  forall E : MathEnv,
    nth_prime 4 11 /\ @NthPrime E 4 = Throw BoundExceeded.
Proof.
  intros E. split.
  - split; [apply is_prime_spec|]; vm_compute; reflexivity.
  - vm_compute. reflexivity.
Qed.

(** C2 (fails on the code at rank 4): [NthPrime] is not to exceed its bound
    for any [n] from 0 to 100000.  For [n = 4] the estimated upper limit is
    11, below which there are 4 primes and not the 5 that are needed, and
    the loop ends without a result. *)
Theorem estimate_of_5_too_small :
  forall E : MathEnv,
    @calculateUpperLimit E (4 + 1) = 11 /\
    count_primes 0 (@calculateUpperLimit E (4 + 1)) = 4 /\
    findNthPrime MAX_ARRAY_SIZE 4 (@calculateUpperLimit E (4 + 1)) =
    Throw BoundExceeded.
Proof. intros E. repeat split; vm_compute; reflexivity. Qed.

(** C3 (counterexample): at offset 1 the segment of length 1 holds [true]
    at index 0, which stands for the number 1. *)
Lemma generatePrimesSieve_offset_1 :
  JS.get (generatePrimesSieve 1 1) 0 = true /\ 1 + 0 < 2 /\ ~ Z.prime (1 + 0).
Proof.
  split; [vm_compute; reflexivity|]. split; [lia|]. exact Z.not_prime_1.
Qed.

(** C3 (amended): for every offset from 0 on other than 1 and every
    positive length, the segment holds [true] at an index [i] below the
    length exactly when [offset + i] is prime; every index that stands for
    a number below 2 holds [false]; the [true] indices of the segment of
    offset 0 and length 30 are 2, 3, 5, 7, 11, 13, 17, 19, 23 and 29, and
    the numbers marked in the segment of offset 20 and length 10 are 23 and
    29. *)
Theorem generatePrimesSieve_correct :
  forall offset limit : Z,
    0 <= offset -> offset <> 1 -> 0 < limit ->
    (forall i, 0 <= i < limit ->
       (JS.get (generatePrimesSieve offset limit) i = true <->
        Z.prime (offset + i))) /\
    (forall i, 0 <= i < limit -> offset + i < 2 ->
       JS.get (generatePrimesSieve offset limit) i = false) /\
    true_indices (generatePrimesSieve 0 30) = [2; 3; 5; 7; 11; 13; 17; 19; 23; 29] /\
    map (Z.add 20) (true_indices (generatePrimesSieve 20 10)) = [23; 29].
Proof.
  intros offset limit Hoff Hne Hlim.
  split; [|split; [|split; vm_compute; reflexivity]].
  - intros i Hi. rewrite generatePrimesSieve_get by assumption. tauto.
  - intros i Hi Hlt.
    destruct (JS.get (generatePrimesSieve offset limit) i) eqn:Hg; [|reflexivity].
    apply generatePrimesSieve_get in Hg; [|assumption|assumption].
    destruct Hg as [_ Hp]. pose proof (Z.prime_ge_2 _ Hp). lia.
Qed.

Lemma generatePrimesSieve_correct_witness :
  JS.get (generatePrimesSieve 20 10) 3 = true <-> Z.prime (20 + 3).
Proof.
  apply (proj1 (generatePrimesSieve_correct 20 10 ltac:(lia) ltac:(lia) ltac:(lia))).
  lia.
Defined.

(** C4 (counterexample): with chunks of size 1 the segment at offset 1
    counts the number 1 as a prime, and the result at rank 1 is 2 instead
    of 3. *)
Lemma NthPrime_chunk_1_differs :
  @NthPrime_with exact_arithmetic 1 1 = Return 2 /\
  @NthPrime_with exact_arithmetic 10 1 = Return 3 /\
  @NthPrime_with exact_arithmetic 1 1 <> @NthPrime_with exact_arithmetic 10 1.
Proof.
  split; [vm_compute; reflexivity|]. split; [vm_compute; reflexivity|].
  vm_compute. discriminate.
Qed.

(** C4 (amended): the result of [NthPrime], value or error, is the same for
    every two values from 2 on of the chunking constant, at every [n]. *)
Theorem NthPrime_chunk_independent :
  forall (E : MathEnv) (chunk1 chunk2 : positive) (n : Z),
    2 <= chunk1 -> 2 <= chunk2 ->
    @NthPrime_with E chunk1 n = @NthPrime_with E chunk2 n.
Proof.
  intros E c1 c2 n H1 H2. unfold NthPrime_with.
  destruct (Z.ltb_spec n 0); [reflexivity|].
  destruct (Z.eqb_spec n 0); [reflexivity|].
  apply findNthPrime_chunk_independent; assumption.
Qed.

Lemma NthPrime_chunk_independent_witness :
  @NthPrime_with exact_arithmetic 10 3 = @NthPrime_with exact_arithmetic 1000000 3.
Proof.
  apply (NthPrime_chunk_independent exact_arithmetic 10 1000000 3); lia.
Defined.

(** C5 (fails on the code at ranks 3 and 4): [NthPrime] is to be strictly
    increasing.  [NthPrime(3)] is 7, and [NthPrime(4)] has no value to
    compare with it: it throws the bound error. *)
Theorem NthPrime_3_4 :
  forall E : MathEnv,
    @NthPrime E 3 = Return 7 /\ @NthPrime E 4 = Throw BoundExceeded.
Proof. intros E. split; vm_compute; reflexivity. Qed.

(** C6: [NthPrime(n)] throws the invalid-argument error exactly when [n] is
    negative, whatever the runtime computes for the estimate. *)
Theorem NthPrime_invalid_argument :
  forall (E : MathEnv) (n : Z),
    @NthPrime E n = Throw InvalidArgument <-> n < 0.
Proof.
  intros E n. split.
  - intros H. destruct (Z.lt_ge_cases n 0) as [Hn|Hn]; [exact Hn|exfalso].
    pose proof (NthPrime_spec n Hn) as S. rewrite H in S.
    destruct S as [S _]. discriminate.
  - intros Hn. unfold NthPrime, NthPrime_with.
    destruct (Z.ltb_spec n 0); [reflexivity|lia].
Qed.

(** C7: when the segment has more than [targetIndex] [true] entries,
    [findTargetPrimeInSegment] returns [offset + i] for the index [i] of
    the [true] entry that has exactly [targetIndex] [true] entries before
    it; otherwise it returns [null]. *)
Theorem findTargetPrimeInSegment_correct :
  forall (segment : JS.array) (targetIndex offset : Z),
    0 <= targetIndex -> 0 <= offset ->
    (targetIndex < JS.filter_length segment ->
     exists i, 0 <= i < JS.length segment /\ JS.get segment i = true /\
               JS.filter_length (firstn (Z.to_nat i) segment) = targetIndex /\
               findTargetPrimeInSegment segment targetIndex offset =
               Some (offset + i)) /\
    (JS.filter_length segment <= targetIndex ->
     findTargetPrimeInSegment segment targetIndex offset = None).
Proof.
  intros segment t off Ht _.
  pose proof (findTargetPrimeInSegment_spec segment t off Ht) as H.
  destruct (findTargetPrimeInSegment segment t off) as [r|].
  - destruct H as (m & Hm & Hg & Hc & ->). split.
    + intros _. exists m. repeat split; try assumption; lia.
    + intros Hle. pose proof (filter_length_above segment m Hm Hg). lia.
  - split; [lia|reflexivity].
Qed.

Lemma findTargetPrimeInSegment_correct_witness :
  exists i, 0 <= i < JS.length [false; true; false; true; true] /\
            JS.get [false; true; false; true; true] i = true /\
            JS.filter_length (firstn (Z.to_nat i) [false; true; false; true; true]) = 1 /\
            findTargetPrimeInSegment [false; true; false; true; true] 1 10 =
            Some (10 + i).
Proof.
  apply (proj1 (findTargetPrimeInSegment_correct
                  [false; true; false; true; true] 1 10 ltac:(lia) ltac:(lia))).
  vm_compute. reflexivity.
Defined.

(** C8: the estimate is never below its argument: for every [n] from 1 on
    that is a JavaScript number, on a runtime whose rounding is monotone
    and whose logarithm is within a quarter of the exact one,
    [calculateUpperLimit(n) >= n]. *)
Theorem calculateUpperLimit_ge :
  forall (E : MathEnv) (n : Z),
    MathEnvSane E -> 1 <= n -> fround (IZR n) = IZR n ->
    n <= @calculateUpperLimit E n.
Proof.
  intros E n S Hn Hdouble. apply calculateUpperLimit_lower; assumption.
Qed.

Lemma calculateUpperLimit_ge_witness :
  7 <= @calculateUpperLimit exact_arithmetic 7.
Proof.
  apply (calculateUpperLimit_ge exact_arithmetic 7 exact_arithmetic_sane);
    [lia|reflexivity].
Defined.

(** C9: a value returned by [NthPrime(n)], for [n] from 0 on, is a prime
    number. *)
Theorem NthPrime_returns_prime :
  forall (E : MathEnv) (n v : Z),
    0 <= n -> @NthPrime E n = Return v -> Z.prime v /\ 2 <= v.
Proof.
  intros E n v Hn H.
  pose proof (NthPrime_spec n Hn) as S. rewrite H in S.
  destruct S as [Hp _]. split; [exact Hp|apply Z.prime_ge_2; exact Hp].
Qed.

Lemma NthPrime_returns_prime_witness : Z.prime 7 /\ 2 <= 7.
Proof.
  apply (NthPrime_returns_prime exact_arithmetic 3 7); [lia|].
  vm_compute. reflexivity.
Defined.

(** C10: each time the loop of [findNthPrime] tests its condition,
    [primeCount] is the number of primes in [[0, offset)]: it is so on
    entry and every iteration that goes on keeps it so. *)
Theorem findNthPrime_loop_invariant :
  forall n upperLimit primeCount offset : Z,
    1 <= n ->
    loop_reaches MAX_ARRAY_SIZE n upperLimit primeCount offset ->
    primeCount = count_primes 0 offset.
Proof.
  intros n U pc off _ Hr.
  apply (loop_reaches_inv MAX_ARRAY_SIZE n U pc off); [|exact Hr].
  unfold MAX_ARRAY_SIZE. lia.
Qed.

Lemma findNthPrime_loop_invariant_witness : 4 = count_primes 0 11.
Proof.
  apply (findNthPrime_loop_invariant 4 11 4 11); [lia|].
  pose proof (reaches_next MAX_ARRAY_SIZE 4 11 0 0
                (reaches_entry MAX_ARRAY_SIZE 4 11)) as H.
  specialize (H ltac:(lia)).
  specialize (H ltac:(vm_compute; reflexivity)).
  vm_compute in H. exact H.
Defined.

(** * Further properties of the class *)

(** ** Lengths *)

Lemma length_set (a : JS.array) (j : Z) (v : bool) :
  0 <= j -> JS.length (JS.set a j v) = Z.max (JS.length a) (j + 1).
Proof.
  intros Hj. unfold JS.length, JS.set.
  destruct (Z.ltb_spec j 0); [lia|].
  destruct (Nat.ltb_spec (Z.to_nat j) (List.length a)).
  - rewrite length_app. cbn [List.length].
    rewrite length_firstn, length_skipn. lia.
  - rewrite !length_app, repeat_length. cbn [List.length]. lia.
Qed.

Lemma length_new_Array_fill (len : Z) (v : bool) :
  JS.length (JS.new_Array_fill len v) = Z.max 0 len.
Proof. unfold JS.length, JS.new_Array_fill. rewrite repeat_length. lia. Qed.

Lemma mark_multiples_length (i : positive) (limit : Z) (primes : JS.array) (j : Z) :
  0 <= j -> limit <= JS.length primes ->
  JS.length (mark_multiples i limit primes j) = JS.length primes.
Proof.
  funelim (mark_multiples i limit primes j); intros Hj Hlen; [|reflexivity].
  pose proof (length_set primes j false Hj) as Hs.
  rewrite H by lia. lia.
Qed.

Lemma sieve_loop_length (offset limit : Z) (primes : JS.array) (i : positive) :
  0 <= offset -> limit <= JS.length primes ->
  JS.length (sieve_loop offset limit primes i) = JS.length primes.
Proof.
  funelim (sieve_loop offset limit primes i); intros Hoff Hlen; [|reflexivity].
  destruct ((offset <=? i) && negb (JS.get primes (i - offset))).
  - apply H; assumption.
  - pose proof (first_multiple offset i 0 Hoff ltac:(lia)) as [Hj _].
    pose proof (mark_multiples_length i limit primes _ Hj Hlen) as Hm.
    rewrite H0 by lia. exact Hm.
Qed.

Lemma generatePrimesSieve_length_aux (offset limit : Z) :
  0 <= offset -> 0 <= limit ->
  JS.length (generatePrimesSieve offset limit) =
  if offset =? 0 then Z.max limit 2 else limit.
Proof.
  intros Hoff Hlim. unfold generatePrimesSieve.
  destruct (Z.eqb_spec offset 0) as [->|Hne].
  - rewrite sieve_loop_length;
      rewrite ?length_set, ?length_new_Array_fill by lia; lia.
  - rewrite sieve_loop_length; rewrite ?length_new_Array_fill; lia.
Qed.

(** ** Arrays are determined by their length and their entries *)

Lemma get_nth (a : JS.array) (k : nat) :
  JS.get a (Z.of_nat k) = nth k a false.
Proof.
  unfold JS.get. destruct (Z.ltb_spec (Z.of_nat k) 0); [lia|].
  rewrite Nat2Z.id. reflexivity.
Qed.

Lemma array_ext (a b : JS.array) :
  JS.length a = JS.length b ->
  (forall k, 0 <= k < JS.length a -> JS.get a k = JS.get b k) ->
  a = b.
Proof.
  intros Hlen Hget. apply (nth_ext a b false false).
  - unfold JS.length in Hlen. lia.
  - intros k Hk. rewrite <- !get_nth. apply Hget. unfold JS.length. lia.
Qed.

Lemma get_app (a b : JS.array) (k : Z) :
  0 <= k ->
  JS.get (a ++ b) k =
  if k <? JS.length a then JS.get a k else JS.get b (k - JS.length a).
Proof.
  intros Hk. unfold JS.get, JS.length.
  destruct (Z.ltb_spec k 0); [lia|].
  destruct (Z.ltb_spec k (Z.of_nat (List.length a))).
  - apply app_nth1. lia.
  - destruct (Z.ltb_spec (k - Z.of_nat (List.length a)) 0); [lia|].
    rewrite app_nth2 by lia. f_equal. lia.
Qed.

(** ** The segment that starts at 1 *)





(** ** More on the scan, the counts and the loop *)

Lemma scan_loop_above_target (primes : JS.array) (targetCount offset i count : Z) :
  targetCount < count ->
  scan_loop primes targetCount offset i count = None.
Proof.
  funelim (scan_loop primes targetCount offset i count); intros Hlt;
    [|reflexivity].
  destruct (JS.get primes i).
  - destruct (Z.eqb_spec count targetCount); [lia|]. apply H. lia.
  - apply H0. exact Hlt.
Qed.

Lemma filter_length_nonneg (a : JS.array) : 0 <= JS.filter_length a.
Proof. unfold JS.filter_length. lia. Qed.

Lemma count_primes_le_width (lo hi : Z) :
  lo <= hi -> count_primes lo hi <= hi - lo.
Proof.
  intros H. unfold count_primes.
  pose proof (filter_length_le is_prime (Zrange lo (Z.to_nat (hi - lo)))) as Hf.
  rewrite Zrange_length in Hf. lia.
Qed.

Lemma loop_reaches_bounds (chunk : positive) (n upperLimit primeCount offset : Z) :
  0 <= n ->
  loop_reaches chunk n upperLimit primeCount offset ->
  0 <= primeCount <= n /\ 0 <= offset <= Z.max 0 upperLimit /\
  ((chunk | offset) \/ offset = upperLimit).
Proof.
  intros Hn. induction 1 as [|pc off Hr IH Hlt Hscan].
  - split; [lia|]. split; [lia|]. left. apply Z.divide_0_r.
  - destruct IH as (Hpc & Hoff & Hdiv).
    pose proof (findTargetPrimeInSegment_spec
                  (generatePrimesSieve off (Z.min (upperLimit - off) chunk))
                  (n - pc) off ltac:(lia)) as Hs.
    rewrite Hscan in Hs.
    pose proof (filter_length_nonneg
                  (generatePrimesSieve off (Z.min (upperLimit - off) chunk))).
    split; [lia|]. split; [lia|].
    destruct (Z.min_spec (upperLimit - off) chunk) as [[_ ->]|[_ ->]].
    + right. lia.
    + left. destruct Hdiv as [Hd|Hd]; [|lia].
      apply Z.divide_add_r; [exact Hd|apply Z.divide_refl].
Qed.

Lemma findNthPrime_loop_negative (chunk : positive) (n upperLimit primeCount offset : Z) :
  n < 0 -> 0 <= primeCount ->
  findNthPrime_loop chunk n upperLimit primeCount offset = Throw BoundExceeded.
Proof.
  funelim (findNthPrime_loop chunk n upperLimit primeCount offset);
    intros Hn Hpc; [|reflexivity].
  unfold findTargetPrimeInSegment.
  rewrite scan_loop_above_target by lia.
  apply H; [exact Hn|].
  pose proof (filter_length_nonneg
                (generatePrimesSieve offset (Z.min (upperLimit - offset) chunk))).
  lia.
Qed.

Lemma nth_prime_ge (n p : Z) : nth_prime n p -> n + 2 <= p.
Proof.
  intros [Hp Hn]. pose proof (Z.prime_ge_2 p Hp).
  rewrite (count_primes_split 0 2 p) in Hn by lia.
  pose proof (count_primes_le_width 2 p ltac:(lia)).
  change (count_primes 0 2) with 0 in Hn. lia.
Qed.

Lemma findNthPrime_max_spec (n upperLimit : Z) :
  0 <= n ->
  match findNthPrime MAX_ARRAY_SIZE n upperLimit with
  | Return v => nth_prime n v /\ v < upperLimit
  | Throw e => e = BoundExceeded /\ count_primes 0 upperLimit <= n
  end.
Proof. apply findNthPrime_spec. unfold MAX_ARRAY_SIZE. lia. Qed.

(** ** [generatePrimesSieve] *)

(** X1: the segment has [limit] entries, except that at offset 0 a length
    of 1 gives 2 entries: clearing [primes[1]] extends the array. *)
Theorem generatePrimesSieve_length :
  forall offset limit : Z,
    0 <= offset -> 0 < limit ->
    JS.length (generatePrimesSieve offset limit) =
    if (offset =? 0) && (limit =? 1) then 2 else limit.
Proof.
  intros offset limit Hoff Hlim.
  rewrite generatePrimesSieve_length_aux by lia.
  destruct (Z.eqb_spec offset 0), (Z.eqb_spec limit 1); simpl; lia.
Qed.

Lemma generatePrimesSieve_length_witness :
  JS.length (generatePrimesSieve 0 1) = 2.
Proof.
  apply (generatePrimesSieve_length 0 1); lia.
Defined.



(** X3: away from offset 1, the number of [true] entries of a segment,
    which is what [findNthPrime] adds to [primeCount], is the number of
    primes in [[offset, offset + limit)]. *)
Theorem generatePrimesSieve_count :
  forall offset limit : Z,
    0 <= offset -> offset <> 1 -> 0 <= limit ->
    JS.filter_length (generatePrimesSieve offset limit) =
    count_primes offset (offset + limit).
Proof.
  intros offset limit Hoff Hne Hlim.
  apply segment_count_all; [|exact Hlim].
  intros k. apply generatePrimesSieve_get; assumption.
Qed.

Lemma generatePrimesSieve_count_witness :
  JS.filter_length (generatePrimesSieve 20 10) = count_primes 20 (20 + 10).
Proof.
  apply (generatePrimesSieve_count 20 10); lia.
Defined.

(** X4: sieving a range in two consecutive segments gives the marking of
    the single segment over the whole range, as soon as the second
    segment starts at 2 or later. *)
Theorem generatePrimesSieve_app :
  forall offset len1 len2 : Z,
    0 <= offset -> offset <> 1 -> 0 <= len1 -> 0 <= len2 ->
    2 <= offset + len1 ->
    generatePrimesSieve offset (len1 + len2) =
    generatePrimesSieve offset len1 ++ generatePrimesSieve (offset + len1) len2.
Proof.
  intros offset len1 len2 Hoff Hne H1 H2 Hsum.
  assert (Hl1 : JS.length (generatePrimesSieve offset len1) = len1).
  { rewrite generatePrimesSieve_length_aux by lia.
    destruct (Z.eqb_spec offset 0); lia. }
  assert (Hl2 : JS.length (generatePrimesSieve (offset + len1) len2) = len2).
  { rewrite generatePrimesSieve_length_aux by lia.
    destruct (Z.eqb_spec (offset + len1) 0); lia. }
  assert (Hl : JS.length (generatePrimesSieve offset (len1 + len2)) = len1 + len2).
  { rewrite generatePrimesSieve_length_aux by lia.
    destruct (Z.eqb_spec offset 0); lia. }
  apply array_ext.
  - rewrite Hl. unfold JS.length in *. rewrite length_app. lia.
  - intros k Hk. rewrite Hl in Hk. rewrite get_app by lia. rewrite Hl1.
    apply eq_true_iff_eq.
    destruct (Z.ltb_spec k len1).
    + rewrite !generatePrimesSieve_get by assumption. intuition lia.
    + rewrite !generatePrimesSieve_get by lia.
      replace (offset + len1 + (k - len1)) with (offset + k) by lia.
      intuition lia.
Qed.

Lemma generatePrimesSieve_app_witness :
  generatePrimesSieve 0 (10 + 5) =
  generatePrimesSieve 0 10 ++ generatePrimesSieve (0 + 10) 5.
Proof.
  apply (generatePrimesSieve_app 0 10 5); lia.
Defined.

(** X5: the inner loop of the sieve clears the indices [j], [j + i],
    [j + 2 i], ... below [limit], leaves every other entry as it was and
    keeps the length of the array. *)
Theorem mark_multiples_progression :
  forall (i : positive) (limit : Z) (primes : JS.array) (j : Z),
    0 <= j -> limit <= JS.length primes ->
    JS.length (mark_multiples i limit primes j) = JS.length primes /\
    (forall k, j <= k < limit -> (i | k - j) ->
       JS.get (mark_multiples i limit primes j) k = false) /\
    (forall k, ~ (j <= k < limit /\ (i | k - j)) ->
       JS.get (mark_multiples i limit primes j) k = JS.get primes k).
Proof.
  intros i limit primes j Hj Hlen.
  split; [apply mark_multiples_length; assumption|]. split.
  - intros k Hk Hd.
    destruct (JS.get (mark_multiples i limit primes j) k) eqn:Hg; [|reflexivity].
    apply mark_multiples_get in Hg; [|exact Hj]. tauto.
  - intros k Hn. apply eq_true_iff_eq.
    rewrite mark_multiples_get by exact Hj. tauto.
Qed.

Lemma mark_multiples_progression_witness :
  JS.length (mark_multiples 3 8 (repeat true 8) 1) = JS.length (repeat true 8) /\
  (forall k, 1 <= k < 8 -> (3 | k - 1) ->
     JS.get (mark_multiples 3 8 (repeat true 8) 1) k = false) /\
  (forall k, ~ (1 <= k < 8 /\ (3 | k - 1)) ->
     JS.get (mark_multiples 3 8 (repeat true 8) 1) k = JS.get (repeat true 8) k).
Proof.
  apply (mark_multiples_progression 3 8 (repeat true 8) 1); [lia|].
  vm_compute. discriminate.
Defined.

(** ** [findTargetPrimeInSegment] *)

(** X6: a negative target is never reached: the scan returns [null]
    whatever the segment holds. *)
Theorem findTargetPrimeInSegment_negative :
  forall (primes : JS.array) (targetCount offset : Z),
    targetCount < 0 ->
    findTargetPrimeInSegment primes targetCount offset = None.
Proof.
  intros primes t off Ht. unfold findTargetPrimeInSegment.
  apply scan_loop_above_target. exact Ht.
Qed.

Lemma findTargetPrimeInSegment_negative_witness :
  findTargetPrimeInSegment [true; true] (-1) 0 = None.
Proof.
  apply (findTargetPrimeInSegment_negative [true; true] (-1) 0). lia.
Defined.

(** X7: the offset only shifts the result: the scan with an offset returns
    what the scan with offset 0 returns, plus the offset, and [null] when
    that one does. *)
Theorem findTargetPrimeInSegment_offset :
  forall (primes : JS.array) (targetCount offset : Z),
    findTargetPrimeInSegment primes targetCount offset =
    option_map (fun r => r + offset)
               (findTargetPrimeInSegment primes targetCount 0).
Proof.
  intros primes t off.
  destruct (Z.lt_ge_cases t 0) as [Ht|Ht].
  - rewrite !findTargetPrimeInSegment_negative by exact Ht. reflexivity.
  - pose proof (findTargetPrimeInSegment_spec primes t off Ht) as S1.
    pose proof (findTargetPrimeInSegment_spec primes t 0 Ht) as S0.
    destruct (findTargetPrimeInSegment primes t off) as [r|],
             (findTargetPrimeInSegment primes t 0) as [r0|]; simpl.
    + destruct S1 as (m & Hm & Hg & Hc & ->), S0 as (m0 & Hm0 & Hg0 & Hc0 & ->).
      assert (m = m0) by (apply (rank_index_unique primes); auto; lia).
      f_equal. lia.
    + destruct S1 as (m & Hm & Hg & Hc & _).
      pose proof (filter_length_above primes m Hm Hg). lia.
    + destruct S0 as (m & Hm & Hg & Hc & _).
      pose proof (filter_length_above primes m Hm Hg). lia.
    + reflexivity.
Qed.

(** X8: when the scan finds the target [t2], it finds every target from 0
    to [t2], and at increasing positions. *)
Theorem findTargetPrimeInSegment_increasing :
  forall (primes : JS.array) (t1 t2 offset r2 : Z),
    0 <= t1 < t2 ->
    findTargetPrimeInSegment primes t2 offset = Some r2 ->
    exists r1, findTargetPrimeInSegment primes t1 offset = Some r1 /\ r1 < r2.
Proof.
  intros primes t1 t2 off r2 Ht H2.
  pose proof (findTargetPrimeInSegment_spec primes t2 off ltac:(lia)) as S2.
  rewrite H2 in S2. destruct S2 as (m2 & Hm2 & Hg2 & Hc2 & ->).
  pose proof (filter_length_above primes m2 Hm2 Hg2) as Habove.
  pose proof (findTargetPrimeInSegment_spec primes t1 off ltac:(lia)) as S1.
  destruct (findTargetPrimeInSegment primes t1 off) as [r1|]; [|lia].
  destruct S1 as (m1 & Hm1 & Hg1 & Hc1 & ->).
  exists (off + m1). split; [reflexivity|].
  destruct (Z.lt_ge_cases m1 m2) as [Hlt|Hge]; [lia|exfalso].
  pose proof (filter_length_firstn_le primes (Z.to_nat m2) (Z.to_nat m1)
                ltac:(lia)). lia.
Qed.

Lemma findTargetPrimeInSegment_increasing_witness :
  exists r1, findTargetPrimeInSegment [false; true; true] 0 5 = Some r1 /\ r1 < 7.
Proof.
  apply (findTargetPrimeInSegment_increasing [false; true; true] 0 1 5 7);
    [lia|vm_compute; reflexivity].
Defined.

(** ** [findNthPrime] *)

(** X9: for a rank from 0 on, [findNthPrime] returns [p] exactly when [p]
    is the prime of that rank and lies below the upper limit. *)
Theorem findNthPrime_returns_iff :
  forall n upperLimit p : Z,
    0 <= n ->
    (findNthPrime MAX_ARRAY_SIZE n upperLimit = Return p <->
     nth_prime n p /\ p < upperLimit).
Proof.
  intros n U p Hn. pose proof (findNthPrime_max_spec n U Hn) as S.
  split.
  - intros H. rewrite H in S. exact S.
  - intros [Hp Hlt].
    destruct (findNthPrime MAX_ARRAY_SIZE n U) as [v|e].
    + f_equal. apply (nth_prime_unique n); [apply S|exact Hp].
    + destruct S as [_ Hc].
      pose proof (nth_prime_count_above n p U Hp Hlt). lia.
Qed.

Lemma findNthPrime_returns_iff_witness :
  findNthPrime MAX_ARRAY_SIZE 5 20 = Return 13 <-> nth_prime 5 13 /\ 13 < 20.
Proof.
  apply (findNthPrime_returns_iff 5 20 13). lia.
Defined.

(** X10: for a rank from 0 on, [findNthPrime] throws the bound error
    exactly when no more than [n] primes lie below the upper limit. *)
Theorem findNthPrime_throws_iff :
  forall n upperLimit : Z,
    0 <= n ->
    (findNthPrime MAX_ARRAY_SIZE n upperLimit = Throw BoundExceeded <->
     count_primes 0 upperLimit <= n).
Proof.
  intros n U Hn. pose proof (findNthPrime_max_spec n U Hn) as S.
  split.
  - intros H. rewrite H in S. apply S.
  - intros Hc. destruct (findNthPrime MAX_ARRAY_SIZE n U) as [v|e].
    + destruct S as [Hp Hlt].
      pose proof (nth_prime_count_above n v U Hp Hlt). lia.
    + destruct S as [-> _]. reflexivity.
Qed.

Lemma findNthPrime_throws_iff_witness :
  findNthPrime MAX_ARRAY_SIZE 4 11 = Throw BoundExceeded <->
  count_primes 0 11 <= 4.
Proof.
  apply (findNthPrime_throws_iff 4 11). lia.
Defined.

(** X11: with a negative rank [findNthPrime] goes through every segment
    and throws the bound error, for every upper limit and chunk size. *)
Theorem findNthPrime_negative_rank :
  forall (chunk : positive) (n upperLimit : Z),
    n < 0 -> findNthPrime chunk n upperLimit = Throw BoundExceeded.
Proof.
  intros chunk n U Hn. unfold findNthPrime.
  apply findNthPrime_loop_negative; [exact Hn|lia].
Qed.

Lemma findNthPrime_negative_rank_witness :
  findNthPrime 10 (-1) 30 = Throw BoundExceeded.
Proof.
  apply (findNthPrime_negative_rank 10 (-1) 30). lia.
Defined.

(** X12: the pairs of [primeCount] and [offset] that the loop reaches, for
    a rank from 0 on: the count stays between 0 and [n], the offset
    between 0 and the upper limit, and the offset is a multiple of the
    chunk size until it is the upper limit itself. *)
Theorem loop_reaches_in_bounds :
  forall (chunk : positive) (n upperLimit primeCount offset : Z),
    0 <= n ->
    loop_reaches chunk n upperLimit primeCount offset ->
    0 <= primeCount <= n /\ 0 <= offset <= Z.max 0 upperLimit /\
    ((chunk | offset) \/ offset = upperLimit).
Proof.
  intros chunk n U pc off Hn Hr.
  apply (loop_reaches_bounds chunk n U pc off Hn Hr).
Qed.

Lemma loop_reaches_in_bounds_witness :
  0 <= 4 <= 4 /\ 0 <= 11 <= Z.max 0 11 /\ ((MAX_ARRAY_SIZE | 11) \/ 11 = 11).
Proof.
  apply (loop_reaches_in_bounds MAX_ARRAY_SIZE 4 11 4 11); [lia|].
  pose proof (reaches_next MAX_ARRAY_SIZE 4 11 0 0
                (reaches_entry MAX_ARRAY_SIZE 4 11)) as H.
  specialize (H ltac:(lia)).
  specialize (H ltac:(vm_compute; reflexivity)).
  vm_compute in H. exact H.
Defined.

(** X13: what the loop does from a pair it has reached is the result of
    the call: the bound error once the offset is at the upper limit, and
    the value found by the scan of the next segment when there is one. *)
Theorem loop_reaches_outcome :
  forall (chunk : positive) (n upperLimit primeCount offset : Z),
    loop_reaches chunk n upperLimit primeCount offset ->
    (upperLimit <= offset ->
     findNthPrime chunk n upperLimit = Throw BoundExceeded) /\
    (offset < upperLimit ->
     forall r,
       findTargetPrimeInSegment
         (generatePrimesSieve offset (Z.min (upperLimit - offset) chunk))
         (n - primeCount) offset = Some r ->
       findNthPrime chunk n upperLimit = Return r).
Proof.
  intros chunk n U pc off Hr.
  rewrite <- (loop_reaches_run chunk n U pc off Hr).
  rewrite (findNthPrime_loop_equation_1 chunk n U pc off).
  destruct (Z_lt_dec off U) as [Hlt|Hge]; simpl.
  - split; [lia|]. intros _ r Hscan. rewrite Hscan. reflexivity.
  - split; [reflexivity|lia].
Qed.

Lemma loop_reaches_outcome_witness :
  (11 <= 11 -> findNthPrime MAX_ARRAY_SIZE 4 11 = Throw BoundExceeded) /\
  (11 < 11 ->
   forall r,
     findTargetPrimeInSegment
       (generatePrimesSieve 11 (Z.min (11 - 11) MAX_ARRAY_SIZE))
       (4 - 4) 11 = Some r ->
     findNthPrime MAX_ARRAY_SIZE 4 11 = Return r).
Proof.
  apply (loop_reaches_outcome MAX_ARRAY_SIZE 4 11 4 11).
  pose proof (reaches_next MAX_ARRAY_SIZE 4 11 0 0
                (reaches_entry MAX_ARRAY_SIZE 4 11)) as H.
  specialize (H ltac:(lia)).
  specialize (H ltac:(vm_compute; reflexivity)).
  vm_compute in H. exact H.
Defined.

(** X14: no segment that [findNthPrime] asks for is longer than
    [MAX_ARRAY_SIZE], and none is empty. *)
Theorem segment_length_bounded :
  forall offset upperLimit : Z,
    0 <= offset < upperLimit ->
    1 <= JS.length
           (generatePrimesSieve offset
              (Z.min (upperLimit - offset) MAX_ARRAY_SIZE))
      <= MAX_ARRAY_SIZE.
Proof.
  intros off U H.
  rewrite generatePrimesSieve_length_aux by lia.
  unfold MAX_ARRAY_SIZE. destruct (Z.eqb_spec off 0); lia.
Qed.

Lemma segment_length_bounded_witness :
  1 <= JS.length (generatePrimesSieve 0 (Z.min (11 - 0) MAX_ARRAY_SIZE))
    <= MAX_ARRAY_SIZE.
Proof.
  apply (segment_length_bounded 0 11). lia.
Defined.

(** ** [NthPrime] *)

(** X15: from rank 1 on, [NthPrime] returns [p] exactly when [p] is the
    prime of rank [n] and lies below the estimated upper limit. *)
Theorem NthPrime_returns_iff :
  forall (E : MathEnv) (n p : Z),
    1 <= n ->
    (@NthPrime E n = Return p <->
     nth_prime n p /\ p < @calculateUpperLimit E (n + 1)).
Proof.
  intros E n p Hn. unfold NthPrime, NthPrime_with.
  destruct (Z.ltb_spec n 0); [lia|].
  destruct (Z.eqb_spec n 0); [lia|]. cbv zeta.
  pose proof (findNthPrime_max_spec n (calculateUpperLimit (n + 1))
                ltac:(lia)) as S.
  split.
  - intros Hr. rewrite Hr in S. exact S.
  - intros [Hp Hlt].
    destruct (findNthPrime MAX_ARRAY_SIZE n (calculateUpperLimit (n + 1)))
      as [v|e].
    + f_equal. apply (nth_prime_unique n); [apply S|exact Hp].
    + destruct S as [_ Hc].
      pose proof (nth_prime_count_above n p _ Hp Hlt). lia.
Qed.

Lemma NthPrime_returns_iff_witness :
  @NthPrime exact_arithmetic 3 = Return 7 <->
  nth_prime 3 7 /\ 7 < @calculateUpperLimit exact_arithmetic (3 + 1).
Proof.
  apply (NthPrime_returns_iff exact_arithmetic 3 7). lia.
Defined.

(** X16: [NthPrime] throws the bound error exactly for the ranks from 1 on
    whose estimated upper limit has no more than [n] primes below it. *)
Theorem NthPrime_bound_exceeded_iff :
  forall (E : MathEnv) (n : Z),
    @NthPrime E n = Throw BoundExceeded <->
    1 <= n /\ count_primes 0 (@calculateUpperLimit E (n + 1)) <= n.
Proof.
  intros E n. unfold NthPrime, NthPrime_with.
  destruct (Z.ltb_spec n 0); [split; [discriminate|lia]|].
  destruct (Z.eqb_spec n 0); [split; [discriminate|lia]|]. cbv zeta.
  pose proof (findNthPrime_max_spec n (calculateUpperLimit (n + 1))
                ltac:(lia)) as S.
  destruct (findNthPrime MAX_ARRAY_SIZE n (calculateUpperLimit (n + 1)))
    as [v|e].
  - split; [discriminate|]. intros [_ Hc]. destruct S as [Hp Hlt].
    pose proof (nth_prime_count_above n v _ Hp Hlt). lia.
  - destruct S as [-> Hc]. split; [intros _; lia|reflexivity].
Qed.

(** X17: on the ranks where it returns, [NthPrime] keeps the order: of two
    returned values the smaller one belongs to the smaller rank, and equal
    values to equal ranks. *)
Theorem NthPrime_order :
  forall (E : MathEnv) (n1 n2 v1 v2 : Z),
    0 <= n1 -> 0 <= n2 ->
    @NthPrime E n1 = Return v1 -> @NthPrime E n2 = Return v2 ->
    (n1 < n2 <-> v1 < v2) /\ (n1 = n2 <-> v1 = v2).
Proof.
  intros E n1 n2 v1 v2 H1 H2 R1 R2.
  pose proof (NthPrime_spec n1 H1) as S1. rewrite R1 in S1.
  pose proof (NthPrime_spec n2 H2) as S2. rewrite R2 in S2.
  assert (Hlt : forall a b x y, nth_prime a x -> nth_prime b y -> a < b -> x < y).
  { intros a b x y Hx Hy Hab. exact (nth_prime_lt a b x y Hx Hy Hab). }
  assert (Heq : n1 = n2 -> v1 = v2).
  { intros ->. exact (nth_prime_unique n2 v1 v2 S1 S2). }
  split; split.
  - apply Hlt; assumption.
  - intros Hv. destruct (Z.lt_trichotomy n1 n2) as [H|[H|H]]; [exact H| |].
    + specialize (Heq H). lia.
    + pose proof (Hlt n2 n1 v2 v1 S2 S1 H). lia.
  - exact Heq.
  - intros ->. destruct S1 as [_ <-], S2 as [_ <-]. reflexivity.
Qed.

Lemma NthPrime_order_witness :
  (2 < 3 <-> 5 < 7) /\ (2 = 3 <-> 5 = 7).
Proof.
  apply (NthPrime_order exact_arithmetic 2 3 5 7);
    [lia|lia|vm_compute; reflexivity|vm_compute; reflexivity].
Defined.

(** X18: a value returned at rank [n] is at least [n + 2]. *)
Theorem NthPrime_lower_bound :
  forall (E : MathEnv) (n v : Z),
    0 <= n -> @NthPrime E n = Return v -> n + 2 <= v.
Proof.
  intros E n v Hn Hr.
  pose proof (NthPrime_spec n Hn) as S. rewrite Hr in S.
  apply nth_prime_ge. exact S.
Qed.

Lemma NthPrime_lower_bound_witness : 3 + 2 <= 7.
Proof.
  apply (NthPrime_lower_bound exact_arithmetic 3 7); [lia|].
  vm_compute. reflexivity.
Defined.
